(** * circularBuffer: a fixed-capacity ring buffer of bytes

    Shallow embedding of [Src/circularBuffer.c] and [Inc/circularBuffer.h].

    - [uint32_t] values are integers of [Z] with the wrap-around modulo
      [2^32] written out ([u32]);
    - [uint8_t] and [char] cells are [Byte.byte];
    - the array [data] is a list updated in place by index;
    - every function that takes [cBuffer_t *] takes the structure and
      returns the updated structure next to its status; the two space
      queries return their count only;
    - a store through an output pointer ([readChar], [peekResult]) is the
      [option byte] component of the result, [None] when the function
      returns without storing;
    - [DestinationBuffer] is the caller's array; a store outside of it has
      no defined behaviour in C and makes the model return [None]. *)

From Stdlib Require Import ZArith Lia Strings.Byte.
From stdpp Require Import base tactics option list.

Local Open Scope Z_scope.

(** ** Machine integers *)

Definition u32 (z : Z) : Z := z mod 2 ^ 32.

Definition is_u32 (z : Z) : Prop := 0 <= z < 2 ^ 32.

#[global] Instance byte_inhabited : Inhabited byte := populate x00.

(** ** Inc/circularBuffer.h *)

Definition C_BUFFER_SIZE : Z := 50.

Record cBuffer_t : Type := mk_cBuffer {
  data  : list byte;
  front : Z;
  rear  : Z
}.

Inductive cBufferStatus_t : Type :=
  | CBUFFER_SUCCESS
  | CBUFFER_EMPTY
  | CBUFFER_FULL
  | CBUFFER_OVERFLOW
  | CBUFFER_FAIL
  | CBUFFER_INVALID_STRING.

Definition status_code (s : cBufferStatus_t) : Z :=
  match s with
  | CBUFFER_SUCCESS => 0
  | CBUFFER_EMPTY => -1
  | CBUFFER_FULL => -2
  | CBUFFER_OVERFLOW => -3
  | CBUFFER_FAIL => -4
  | CBUFFER_INVALID_STRING => -5
  end.

(** ** libc: [memset] and [strlen] *)

(** [memset l c n] overwrites the first [n] cells of [l]. *)
Definition memset (l : list byte) (c : byte) (n : Z) : list byte :=
  replicate (Z.to_nat n `min` length l)%nat c ++ drop (Z.to_nat n) l.

(** [strlen mem] counts the cells of [mem] before the first zero byte;
    [mem] is the memory that the [const char *] points to. The count is a
    [size_t]; [cBuffer_add_string] narrows it to [uint32_t]. *)
Fixpoint strlen (mem : list byte) : nat :=
  match mem with
  | [] => O
  | c :: rest => if Byte.eqb c x00 then O else S (strlen rest)
  end.

(** ** Src/circularBuffer.c *)

Definition cBuffer_Init (cBuffer : cBuffer_t) : cBuffer_t :=
  {| data := memset (data cBuffer) x00 C_BUFFER_SIZE;
     front := 0;
     rear := 0 |}.

Definition cBuffer_Clean (cBuffer : cBuffer_t) : cBuffer_t :=
  cBuffer_Init cBuffer.

Definition cBuffer_add_char (cBuffer : cBuffer_t) (d : byte)
  : cBufferStatus_t * cBuffer_t :=
  if negb (u32 (rear cBuffer + 1) mod C_BUFFER_SIZE =? front cBuffer) then
    let rear' := u32 (rear cBuffer + 1) mod C_BUFFER_SIZE in
    (CBUFFER_SUCCESS,
     {| data := <[Z.to_nat rear' := d]> (data cBuffer);
        front := front cBuffer;
        rear := rear' |})
  else
    (CBUFFER_FULL, cBuffer).

Definition cBuffer_read_char (cBuffer : cBuffer_t)
  : cBufferStatus_t * cBuffer_t * option byte :=
  if negb (front cBuffer =? rear cBuffer) then
    let front' := u32 (front cBuffer + 1) mod C_BUFFER_SIZE in
    (CBUFFER_SUCCESS,
     {| data := data cBuffer; front := front'; rear := rear cBuffer |},
     Some (data cBuffer !!! Z.to_nat front'))
  else
    (CBUFFER_EMPTY, cBuffer, None).

Definition cBuffer_get_availableSpace (cBuffer : cBuffer_t) : Z :=
  if front cBuffer >? rear cBuffer then
    u32 (u32 (front cBuffer - rear cBuffer) - 1)
  else
    u32 (C_BUFFER_SIZE - u32 (u32 (rear cBuffer - front cBuffer) + 1)).

Definition cBuffer_get_usedSpace (cBuffer : cBuffer_t) : Z :=
  if rear cBuffer >=? front cBuffer then
    u32 (rear cBuffer - front cBuffer)
  else
    u32 (C_BUFFER_SIZE - u32 (front cBuffer - rear cBuffer)).

(** The [for] loop of [cBuffer_add_string]: [count] iterations remain and
    the next one reads [stringData[i]]; the status of each
    [cBuffer_add_char] is dropped, as in the source. *)
Fixpoint add_string_loop (stringData : list byte) (i count : nat)
    (cBuffer : cBuffer_t) : cBuffer_t :=
  match count with
  | O => cBuffer
  | S k =>
      add_string_loop stringData (S i) k
        (cBuffer_add_char cBuffer (stringData !!! i)).2
  end.

Definition cBuffer_add_string (cBuffer : cBuffer_t) (stringData : list byte)
  : cBufferStatus_t * cBuffer_t :=
  let str_length := u32 (Z.of_nat (strlen stringData)) in
  let buffer_spaceAvailable := cBuffer_get_availableSpace cBuffer in
  if buffer_spaceAvailable <? u32 (str_length + 1) then
    (CBUFFER_OVERFLOW, cBuffer)
  else
    let cBuffer1 := add_string_loop stringData 0 (Z.to_nat str_length) cBuffer in
    (CBUFFER_SUCCESS, (cBuffer_add_char cBuffer1 x00).2).

(** [cBuffer_peek] takes a [cBuffer_t const *] and assigns to none of its
    fields; the structure is returned as the function leaves it, so that
    its frame can be stated like that of the other operations. *)
Definition cBuffer_peek (cBuffer : cBuffer_t) (peekIndex : Z)
  : cBufferStatus_t * cBuffer_t * option byte :=
  let data_inSourceBuffer := cBuffer_get_usedSpace cBuffer in
  if peekIndex >=? data_inSourceBuffer then
    (CBUFFER_FAIL, cBuffer, None)
  else
    let actualIndex := u32 (u32 (front cBuffer + peekIndex) + 1) mod C_BUFFER_SIZE in
    (CBUFFER_SUCCESS, cBuffer, Some (data cBuffer !!! Z.to_nat actualIndex)).

(** A store into the caller's array: defined within its bounds only. *)
Definition store (dest : list byte) (i : nat) (c : byte) : option (list byte) :=
  if decide (i < length dest)%nat then Some (<[i := c]> dest) else None.

(** The [for] loop of [cBuffer_read_string]: [cBuffer_read_char] is handed
    [&DestinationBuffer[i]] and stores there when it succeeds. *)
Fixpoint read_string_loop (i count : nat) (cBuffer : cBuffer_t)
    (DestinationBuffer : list byte) : option (cBuffer_t * list byte) :=
  match count with
  | O => Some (cBuffer, DestinationBuffer)
  | S k =>
      let '(_, cBuffer', readChar) := cBuffer_read_char cBuffer in
      dest' ← match readChar with
               | Some c => store DestinationBuffer i c
               | None => Some DestinationBuffer
               end;
      read_string_loop (S i) k cBuffer' dest'
  end.

Definition cBuffer_read_string (cBuffer : cBuffer_t) (str_length : Z)
    (DestinationBuffer : list byte)
  : option (cBufferStatus_t * cBuffer_t * list byte) :=
  let data_inSourceBuffer := cBuffer_get_usedSpace cBuffer in
  if data_inSourceBuffer <? str_length then
    Some (CBUFFER_FAIL, cBuffer, DestinationBuffer)
  else
    '(cBuffer', dest') ← read_string_loop 0 (Z.to_nat str_length) cBuffer
                            DestinationBuffer;
    dest'' ← store dest' (Z.to_nat str_length) x00;
    Some (CBUFFER_SUCCESS, cBuffer', dest'').

(** ** Callers: sequences of single-byte operations *)

(** [cBuffer_add_char] called once per byte of [bs], statuses collected. *)
Fixpoint add_chars (cBuffer : cBuffer_t) (bs : list byte)
  : list cBufferStatus_t * cBuffer_t :=
  match bs with
  | [] => ([], cBuffer)
  | d :: rest =>
      let '(st, cBuffer') := cBuffer_add_char cBuffer d in
      let '(sts, cBuffer'') := add_chars cBuffer' rest in
      (st :: sts, cBuffer'')
  end.

(** [cBuffer_read_char] called [n] times, status and stored byte collected. *)
Fixpoint read_chars (cBuffer : cBuffer_t) (n : nat)
  : list (cBufferStatus_t * option byte) * cBuffer_t :=
  match n with
  | O => ([], cBuffer)
  | S k =>
      let '(st, cBuffer', c) := cBuffer_read_char cBuffer in
      let '(rs, cBuffer'') := read_chars cBuffer' k in
      ((st, c) :: rs, cBuffer'')
  end.

(** A streaming caller: each byte of [bs] is pushed and popped again at
    once; the statuses of both calls and the byte handed back are
    collected. *)
Fixpoint echo_chars (cBuffer : cBuffer_t) (bs : list byte)
  : list (cBufferStatus_t * cBufferStatus_t * option byte) * cBuffer_t :=
  match bs with
  | [] => ([], cBuffer)
  | d :: rest =>
      let '(st_add, cBuffer1) := cBuffer_add_char cBuffer d in
      let '(st_read, cBuffer2, c) := cBuffer_read_char cBuffer1 in
      let '(rs, cBuffer3) := echo_chars cBuffer2 rest in
      ((st_add, st_read, c) :: rs, cBuffer3)
  end.

(** ** Buffer states and their logical contents *)

(** The states of the data model: [C_BUFFER_SIZE] cells and both indices
    inside the array. *)
Definition wf (b : cBuffer_t) : Prop :=
  length (data b) = Z.to_nat C_BUFFER_SIZE /\
  0 <= front b < C_BUFFER_SIZE /\
  0 <= rear b < C_BUFFER_SIZE.

(** The cell that holds the [k]-th oldest unread byte. *)
Definition slot (b : cBuffer_t) (k : nat) : byte :=
  data b !!! Z.to_nat ((front b + 1 + Z.of_nat k) mod C_BUFFER_SIZE).

(** The unread bytes, oldest first. *)
Definition contents (b : cBuffer_t) : list byte :=
  slot b <$> seq 0 (Z.to_nat (cBuffer_get_usedSpace b)).

(** The state after a push that finds room, and after a pop that finds a
    byte. *)
Definition pushed (b : cBuffer_t) (d : byte) : cBuffer_t :=
  {| data := <[Z.to_nat ((rear b + 1) mod C_BUFFER_SIZE) := d]> (data b);
     front := front b;
     rear := (rear b + 1) mod C_BUFFER_SIZE |}.

Definition popped (b : cBuffer_t) : cBuffer_t :=
  {| data := data b;
     front := (front b + 1) mod C_BUFFER_SIZE;
     rear := rear b |}.

(** ** Concrete inputs *)

(** A structure as the caller declares it, before [cBuffer_Init]. *)
Definition uninitialised : cBuffer_t :=
  {| data := replicate 50 xff; front := 7; rear := 9 |}.

(** The literal ["hello"], the literal ["abcd"], and the empty literal as
    they lie in memory. *)
Definition hello : list byte := ["h"; "e"; "l"; "l"; "o"; x00]%byte.
Definition abcd : list byte := ["a"; "b"; "c"; "d"; x00]%byte.

(** A string of [2^32 - 1] letters: [strlen] returns a [size_t] that the
    32-bit [str_length] holds, and [str_length + 1] wraps to 0. *)
Definition long_string : list byte :=
  replicate (Z.to_nat (2 ^ 32 - 1)) "a"%byte ++ [x00].

(** A buffer holding 46 bytes: 3 more fit. *)
Definition nearly_full : cBuffer_t :=
  {| data := replicate 50 "z"%byte; front := 0; rear := 46 |}.

(** A buffer whose indices have wrapped: it holds the bytes of cells
    48, 49, 0 and 1. *)
Definition wrapped : cBuffer_t :=
  {| data := ["c"; "d"]%byte ++ replicate 46 x00 ++ ["a"; "b"]%byte;
     front := 47; rear := 1 |}.

(** States reachable from [cBuffer_Init] by the public operations. *)
Inductive reachable : cBuffer_t -> Prop :=
  | reach_Init b0 :
      length (data b0) = Z.to_nat C_BUFFER_SIZE -> reachable (cBuffer_Init b0)
  | reach_Clean b :
      reachable b -> reachable (cBuffer_Clean b)
  | reach_add_char b d :
      reachable b -> reachable (cBuffer_add_char b d).2
  | reach_read_char b :
      reachable b -> reachable (cBuffer_read_char b).1.2
  | reach_add_string b stringData :
      reachable b -> reachable (cBuffer_add_string b stringData).2
  | reach_read_string b n dest st b' dest' :
      reachable b -> is_u32 n ->
      cBuffer_read_string b n dest = Some (st, b', dest') -> reachable b'
  | reach_peek b i :
      reachable b -> is_u32 i -> reachable (cBuffer_peek b i).1.2.

(** * Proofs *)

(** ** Index arithmetic *)

Ltac norm_consts :=
  unfold is_u32, u32, C_BUFFER_SIZE in *;
  change (2 ^ 32) with 4294967296 in *.

Ltac idx_lia := norm_consts; Z.div_mod_to_equations; lia.

Lemma u32_small z : is_u32 z -> u32 z = z.
Proof. intros H. unfold u32. apply Z.mod_small. exact H. Qed.

Lemma u32_range z : is_u32 (u32 z).
Proof. idx_lia. Qed.

Lemma wf_length b : wf b -> length (data b) = 50%nat.
Proof. intros [H _]. exact H. Qed.

Lemma usedSpace_wf b :
  wf b -> cBuffer_get_usedSpace b = (rear b - front b) mod C_BUFFER_SIZE.
Proof.
  intros (_ & Hf & Hr). unfold cBuffer_get_usedSpace.
  destruct (Z.geb_spec (rear b) (front b)); idx_lia.
Qed.

Lemma usedSpace_range b : wf b -> 0 <= cBuffer_get_usedSpace b <= C_BUFFER_SIZE - 1.
Proof. intros H. rewrite (usedSpace_wf b H). destruct H as (_ & ? & ?). idx_lia. Qed.

Lemma availableSpace_wf b :
  wf b -> cBuffer_get_availableSpace b = C_BUFFER_SIZE - 1 - cBuffer_get_usedSpace b.
Proof.
  intros H. rewrite (usedSpace_wf b H). destruct H as (_ & Hf & Hr).
  unfold cBuffer_get_availableSpace.
  destruct (Z.gtb_spec (front b) (rear b)); idx_lia.
Qed.

Lemma used_plus_available b :
  wf b -> cBuffer_get_usedSpace b + cBuffer_get_availableSpace b = C_BUFFER_SIZE - 1.
Proof. intros H. rewrite (availableSpace_wf b H). lia. Qed.

(** ** [cBuffer_add_char] *)

Lemma add_char_success b d :
  wf b -> cBuffer_get_usedSpace b < C_BUFFER_SIZE - 1 ->
  cBuffer_add_char b d = (CBUFFER_SUCCESS, pushed b d).
Proof.
  intros H Hu. rewrite (usedSpace_wf b H) in Hu. destruct H as (_ & Hf & Hr).
  unfold cBuffer_add_char, pushed.
  replace (u32 (rear b + 1)) with (rear b + 1) by idx_lia.
  destruct (Z.eqb_spec ((rear b + 1) mod C_BUFFER_SIZE) (front b)) as [E|E];
    [exfalso; idx_lia | reflexivity].
Qed.

Lemma add_char_full b d :
  wf b -> cBuffer_get_usedSpace b = C_BUFFER_SIZE - 1 ->
  cBuffer_add_char b d = (CBUFFER_FULL, b).
Proof.
  intros H Hu. rewrite (usedSpace_wf b H) in Hu. destruct H as (_ & Hf & Hr).
  unfold cBuffer_add_char.
  replace (u32 (rear b + 1)) with (rear b + 1) by idx_lia.
  destruct (Z.eqb_spec ((rear b + 1) mod C_BUFFER_SIZE) (front b)) as [E|E];
    [reflexivity | exfalso; idx_lia].
Qed.

Lemma pushed_wf b d : wf b -> wf (pushed b d).
Proof.
  intros (Hl & Hf & Hr). unfold wf, pushed; simpl.
  rewrite length_insert. repeat split; try assumption; idx_lia.
Qed.

Lemma pushed_used b d :
  wf b -> cBuffer_get_usedSpace b < C_BUFFER_SIZE - 1 ->
  cBuffer_get_usedSpace (pushed b d) = cBuffer_get_usedSpace b + 1.
Proof.
  intros H Hu. rewrite (usedSpace_wf _ (pushed_wf b d H)).
  rewrite (usedSpace_wf b H) in *. destruct H as (_ & Hf & Hr).
  simpl. idx_lia.
Qed.

Lemma pushed_slot_old b d k :
  wf b -> Z.of_nat k < cBuffer_get_usedSpace b ->
  slot (pushed b d) k = slot b k.
Proof.
  intros H Hk. rewrite (usedSpace_wf b H) in Hk. destruct H as (Hl & Hf & Hr).
  unfold slot, pushed; simpl.
  apply list_lookup_total_insert_ne. idx_lia.
Qed.

Lemma pushed_slot_new b d :
  wf b ->
  slot (pushed b d) (Z.to_nat (cBuffer_get_usedSpace b)) = d.
Proof.
  intros H. pose proof (usedSpace_range b H) as Hu.
  rewrite (usedSpace_wf b H) in *. destruct H as (Hl & Hf & Hr).
  unfold slot, pushed; simpl.
  replace ((front b + 1 + Z.of_nat (Z.to_nat ((rear b - front b) mod C_BUFFER_SIZE)))
             mod C_BUFFER_SIZE)
    with ((rear b + 1) mod C_BUFFER_SIZE) by idx_lia.
  apply list_lookup_total_insert_eq. rewrite Hl. idx_lia.
Qed.

Lemma pushed_contents b d :
  wf b -> cBuffer_get_usedSpace b < C_BUFFER_SIZE - 1 ->
  contents (pushed b d) = contents b ++ [d].
Proof.
  intros H Hu. pose proof (usedSpace_range b H) as Hr.
  unfold contents. rewrite (pushed_used b d H Hu).
  replace (Z.to_nat (cBuffer_get_usedSpace b + 1))
    with (S (Z.to_nat (cBuffer_get_usedSpace b))) by lia.
  rewrite seq_S, fmap_app. simpl. rewrite (pushed_slot_new b d H).
  f_equal. apply list_fmap_ext. intros i k Hik.
  apply lookup_seq in Hik as [-> Hlt]. simpl.
  apply pushed_slot_old; [assumption | lia].
Qed.

Lemma contents_length b :
  length (contents b) = Z.to_nat (cBuffer_get_usedSpace b).
Proof. unfold contents. rewrite length_fmap. apply length_seq. Qed.

(** ** [cBuffer_read_char] *)

Lemma read_char_success b :
  wf b -> 0 < cBuffer_get_usedSpace b ->
  cBuffer_read_char b = (CBUFFER_SUCCESS, popped b, Some (slot b 0)).
Proof.
  intros H Hu. rewrite (usedSpace_wf b H) in Hu. destruct H as (_ & Hf & Hr).
  unfold cBuffer_read_char, popped, slot.
  replace (u32 (front b + 1)) with (front b + 1) by idx_lia.
  replace (front b + 1 + Z.of_nat 0) with (front b + 1) by lia.
  destruct (Z.eqb_spec (front b) (rear b)) as [E|E];
    [exfalso; idx_lia | reflexivity].
Qed.

Lemma read_char_empty b :
  wf b -> cBuffer_get_usedSpace b = 0 ->
  cBuffer_read_char b = (CBUFFER_EMPTY, b, None).
Proof.
  intros H Hu. rewrite (usedSpace_wf b H) in Hu. destruct H as (_ & Hf & Hr).
  unfold cBuffer_read_char.
  destruct (Z.eqb_spec (front b) (rear b)) as [E|E];
    [reflexivity | exfalso; idx_lia].
Qed.

Lemma popped_wf b : wf b -> wf (popped b).
Proof.
  intros (Hl & Hf & Hr). unfold wf, popped; simpl.
  repeat split; try assumption; idx_lia.
Qed.

Lemma popped_used b :
  wf b -> 0 < cBuffer_get_usedSpace b ->
  cBuffer_get_usedSpace (popped b) = cBuffer_get_usedSpace b - 1.
Proof.
  intros H Hu. rewrite (usedSpace_wf _ (popped_wf b H)).
  rewrite (usedSpace_wf b H) in *. destruct H as (_ & Hf & Hr).
  simpl. idx_lia.
Qed.

Lemma popped_slot b k : wf b -> slot (popped b) k = slot b (S k).
Proof.
  intros (_ & Hf & Hr). unfold slot, popped; simpl. do 2 f_equal. idx_lia.
Qed.

Lemma popped_contents b :
  wf b -> 0 < cBuffer_get_usedSpace b ->
  contents b = slot b 0 :: contents (popped b).
Proof.
  intros H Hu. unfold contents. rewrite (popped_used b H Hu).
  replace (Z.to_nat (cBuffer_get_usedSpace b))
    with (S (Z.to_nat (cBuffer_get_usedSpace b - 1))) at 1 by lia.
  simpl. f_equal. rewrite <- fmap_S_seq, <- list_fmap_compose.
  apply list_fmap_ext. intros i k _. simpl. symmetry. apply popped_slot, H.
Qed.

(** ** Preservation of [wf] *)

Lemma add_char_wf b d : wf b -> wf (cBuffer_add_char b d).2.
Proof.
  intros H. pose proof (usedSpace_range b H) as Hu.
  destruct (decide (cBuffer_get_usedSpace b = C_BUFFER_SIZE - 1)) as [E|E].
  - rewrite (add_char_full b d H E). exact H.
  - rewrite (add_char_success b d H) by lia. apply pushed_wf, H.
Qed.

Lemma read_char_wf b : wf b -> wf (cBuffer_read_char b).1.2.
Proof.
  intros H. pose proof (usedSpace_range b H) as Hu.
  destruct (decide (cBuffer_get_usedSpace b = 0)) as [E|E].
  - rewrite (read_char_empty b H E). exact H.
  - rewrite (read_char_success b H) by lia. apply popped_wf, H.
Qed.

Lemma Init_wf b0 :
  length (data b0) = Z.to_nat C_BUFFER_SIZE -> wf (cBuffer_Init b0).
Proof.
  intros Hl. unfold wf, cBuffer_Init, memset; simpl.
  rewrite length_app, length_replicate, length_drop, Hl.
  repeat split; norm_consts; lia.
Qed.

Lemma Init_data b0 :
  length (data b0) = Z.to_nat C_BUFFER_SIZE ->
  cBuffer_Init b0 = {| data := replicate 50 x00; front := 0; rear := 0 |}.
Proof.
  intros Hl. unfold cBuffer_Init, memset. f_equal.
  rewrite drop_ge by (rewrite Hl; reflexivity).
  rewrite Hl, app_nil_r. reflexivity.
Qed.

Lemma Init_used b0 : cBuffer_get_usedSpace (cBuffer_Init b0) = 0.
Proof. reflexivity. Qed.

Lemma Init_contents b0 : contents (cBuffer_Init b0) = [].
Proof. reflexivity. Qed.

(** ** Sequences of pushes *)

Lemma add_chars_cons b d rest :
  add_chars b (d :: rest) =
  ((cBuffer_add_char b d).1 :: (add_chars (cBuffer_add_char b d).2 rest).1,
   (add_chars (cBuffer_add_char b d).2 rest).2).
Proof.
  simpl. destruct (cBuffer_add_char b d) as [st b']. simpl.
  destruct (add_chars b' rest). reflexivity.
Qed.

Lemma add_chars_app b l1 l2 :
  add_chars b (l1 ++ l2) =
  ((add_chars b l1).1 ++ (add_chars (add_chars b l1).2 l2).1,
   (add_chars (add_chars b l1).2 l2).2).
Proof.
  revert b. induction l1 as [|d l1 IH]; intros b.
  - simpl. destruct (add_chars b l2). reflexivity.
  - rewrite <- app_comm_cons, !add_chars_cons, IH. reflexivity.
Qed.

Lemma add_chars_wf b bs : wf b -> wf (add_chars b bs).2.
Proof.
  revert b. induction bs as [|d bs IH]; intros b H; [exact H|].
  rewrite add_chars_cons. simpl. apply IH, add_char_wf, H.
Qed.

Lemma add_chars_length b bs : length (add_chars b bs).1 = length bs.
Proof.
  revert b. induction bs as [|d bs IH]; intros b; [reflexivity|].
  rewrite add_chars_cons. simpl. f_equal. apply IH.
Qed.

(** While room is left, every push succeeds and the bytes queue up behind
    the ones already stored. *)
Lemma add_chars_success bs : forall b,
  wf b ->
  cBuffer_get_usedSpace b + Z.of_nat (length bs) <= C_BUFFER_SIZE - 1 ->
  (add_chars b bs).1 = replicate (length bs) CBUFFER_SUCCESS /\
  contents (add_chars b bs).2 = contents b ++ bs /\
  front (add_chars b bs).2 = front b /\
  cBuffer_get_usedSpace (add_chars b bs).2 =
    cBuffer_get_usedSpace b + Z.of_nat (length bs).
Proof.
  induction bs as [|d bs IH]; intros b H Hroom.
  - simpl. rewrite app_nil_r. repeat split; lia.
  - simpl length in *. rewrite add_chars_cons.
    rewrite (add_char_success b d H) by lia. simpl.
    destruct (IH (pushed b d)) as (Hs & Hc & Hf & Hu).
    + apply pushed_wf, H.
    + rewrite pushed_used by (assumption || lia). lia.
    + rewrite Hs, Hc, Hf, Hu, pushed_contents, pushed_used by (assumption || lia).
      rewrite <- app_assoc. simpl. repeat split; lia.
Qed.

(** ** Sequences of pops *)

Lemma read_chars_S b n :
  read_chars b (S n) =
  (((cBuffer_read_char b).1.1, (cBuffer_read_char b).2)
     :: (read_chars (cBuffer_read_char b).1.2 n).1,
   (read_chars (cBuffer_read_char b).1.2 n).2).
Proof.
  simpl. destruct (cBuffer_read_char b) as [[st b'] c]. simpl.
  destruct (read_chars b' n). reflexivity.
Qed.

Lemma read_chars_wf b n : wf b -> wf (read_chars b n).2.
Proof.
  revert b. induction n as [|n IH]; intros b H; [exact H|].
  rewrite read_chars_S. simpl. apply IH, read_char_wf, H.
Qed.

(** While bytes are left, every pop succeeds and hands out the oldest one. *)
Lemma read_chars_success n : forall b,
  wf b ->
  Z.of_nat n <= cBuffer_get_usedSpace b ->
  (read_chars b n).1 = (fun c => (CBUFFER_SUCCESS, Some c)) <$> take n (contents b) /\
  contents (read_chars b n).2 = drop n (contents b) /\
  rear (read_chars b n).2 = rear b /\
  data (read_chars b n).2 = data b /\
  cBuffer_get_usedSpace (read_chars b n).2 = cBuffer_get_usedSpace b - Z.of_nat n.
Proof.
  induction n as [|n IH]; intros b H Hn.
  - simpl. rewrite drop_0. repeat split; lia.
  - rewrite read_chars_S.
    rewrite (read_char_success b H) by lia. simpl fst; simpl snd.
    destruct (IH (popped b)) as (Hs & Hc & Hr & Hd & Hu).
    + apply popped_wf, H.
    + rewrite popped_used by (assumption || lia). lia.
    + rewrite Hs, Hc, Hr, Hd, Hu, (popped_contents b H) by lia.
      rewrite popped_used by (assumption || lia).
      simpl. repeat split; lia.
Qed.

(** ** [cBuffer_add_string] *)

Lemma strlen_le mem : (strlen mem <= length mem)%nat.
Proof.
  induction mem as [|c mem IH]; simpl; [lia|].
  destruct (Byte.eqb c x00); lia.
Qed.

Lemma strlen_terminated s rest :
  Forall (fun c => c <> x00) s -> strlen (s ++ x00 :: rest) = length s.
Proof.
  induction 1 as [|c s Hc _ IH]; simpl; [reflexivity|].
  destruct (Byte.eqb c x00) eqn:E; [|by rewrite IH].
  apply Byte.byte_dec_bl in E. contradiction.
Qed.

Lemma add_string_loop_add_chars stringData count : forall i b,
  (i + count <= length stringData)%nat ->
  add_string_loop stringData i count b =
  (add_chars b (take count (drop i stringData))).2.
Proof.
  induction count as [|k IH]; intros i b Hlen; [reflexivity|].
  simpl add_string_loop. rewrite IH by lia.
  rewrite (drop_S stringData (stringData !!! i) i)
    by (apply list_lookup_lookup_total_lt; lia).
  rewrite firstn_cons, add_chars_cons. reflexivity.
Qed.

Lemma add_string_overflow b stringData :
  wf b ->
  is_u32 (Z.of_nat (strlen stringData) + 1) ->
  cBuffer_get_availableSpace b < Z.of_nat (strlen stringData) + 1 ->
  cBuffer_add_string b stringData = (CBUFFER_OVERFLOW, b).
Proof.
  intros H Hn Hav. unfold cBuffer_add_string.
  rewrite (u32_small (Z.of_nat (strlen stringData))) by (norm_consts; lia).
  rewrite (u32_small _ Hn).
  destruct (Z.ltb_spec (cBuffer_get_availableSpace b)
              (Z.of_nat (strlen stringData) + 1)); [reflexivity | lia].
Qed.

Lemma add_string_fits b stringData :
  wf b ->
  Z.of_nat (strlen stringData) + 1 <= cBuffer_get_availableSpace b ->
  cBuffer_add_string b stringData =
  (CBUFFER_SUCCESS,
   (add_chars b (take (strlen stringData) stringData ++ [x00])).2).
Proof.
  intros H Hav. pose proof (usedSpace_range b H) as Hu.
  rewrite (availableSpace_wf b H) in Hav.
  assert (Hn : Z.of_nat (strlen stringData) < C_BUFFER_SIZE - 1) by lia.
  unfold cBuffer_add_string.
  rewrite (u32_small (Z.of_nat (strlen stringData))) by (norm_consts; lia).
  rewrite (u32_small (Z.of_nat (strlen stringData) + 1)) by (norm_consts; lia).
  rewrite (availableSpace_wf b H).
  destruct (Z.ltb_spec (C_BUFFER_SIZE - 1 - cBuffer_get_usedSpace b)
              (Z.of_nat (strlen stringData) + 1)); [lia|].
  rewrite Nat2Z.id, add_string_loop_add_chars by (pose proof (strlen_le stringData); lia).
  rewrite drop_0, add_chars_app. simpl.
  destruct (cBuffer_add_char _ x00). reflexivity.
Qed.

(** ** [cBuffer_read_string] *)

Lemma store_in_bounds dest i c :
  (i < length dest)%nat -> store dest i c = Some (<[i := c]> dest).
Proof. intros H. unfold store. by rewrite decide_True. Qed.

Lemma insert_as_splice (dest : list byte) i c :
  (i < length dest)%nat -> <[i := c]> dest = take i dest ++ c :: drop (S i) dest.
Proof.
  intros H. rewrite insert_take_drop by exact H. reflexivity.
Qed.

Lemma read_string_loop_spec count : forall i b dest,
  wf b ->
  Z.of_nat count <= cBuffer_get_usedSpace b ->
  (i + count <= length dest)%nat ->
  read_string_loop i count b dest =
  Some ((read_chars b count).2,
        take i dest ++ take count (contents b) ++ drop (i + count) dest).
Proof.
  induction count as [|k IH]; intros i b dest H Hk Hlen.
  - simpl. rewrite Nat.add_0_r, take_drop. reflexivity.
  - simpl read_string_loop. rewrite read_chars_S.
    rewrite (read_char_success b H) by lia. simpl fst; simpl snd.
    rewrite store_in_bounds by lia. simpl.
    rewrite IH.
    + rewrite (popped_contents b H) by lia. simpl.
      rewrite (take_S_r _ i (slot b 0))
        by (apply list_lookup_insert_eq; lia).
      rewrite take_insert_ge by lia.
      rewrite drop_insert_lt by lia.
      rewrite <- app_assoc. simpl.
      replace (S (i + k)) with (i + S k)%nat by lia. reflexivity.
    + apply popped_wf, H.
    + rewrite popped_used by (assumption || lia). lia.
    + rewrite length_insert. lia.
Qed.

Lemma read_string_underflow b n dest :
  cBuffer_get_usedSpace b < n ->
  cBuffer_read_string b n dest = Some (CBUFFER_FAIL, b, dest).
Proof.
  intros Hn. unfold cBuffer_read_string.
  destruct (Z.ltb_spec (cBuffer_get_usedSpace b) n); [reflexivity | lia].
Qed.

Lemma read_string_enough b n dest :
  wf b -> 0 <= n <= cBuffer_get_usedSpace b ->
  (Z.to_nat n < length dest)%nat ->
  cBuffer_read_string b n dest =
  Some (CBUFFER_SUCCESS,
        (read_chars b (Z.to_nat n)).2,
        take (Z.to_nat n) (contents b) ++ x00 :: drop (S (Z.to_nat n)) dest).
Proof.
  intros H Hn Hlen. unfold cBuffer_read_string.
  destruct (Z.ltb_spec (cBuffer_get_usedSpace b) n); [lia|].
  rewrite read_string_loop_spec by (assumption || lia). simpl.
  assert (Htk : length (take (Z.to_nat n) (contents b)) = Z.to_nat n).
  { rewrite length_take, contents_length. lia. }
  rewrite store_in_bounds
    by (rewrite length_app, Htk, length_drop; lia).
  simpl. do 2 f_equal.
  rewrite insert_as_splice by (rewrite length_app, Htk, length_drop; lia).
  rewrite take_app_length' by (symmetry; exact Htk).
  f_equal. f_equal.
  rewrite drop_app_ge by lia. rewrite Htk.
  rewrite drop_drop. f_equal. lia.
Qed.

(** ** [cBuffer_peek] *)

Lemma peek_fail b i :
  cBuffer_get_usedSpace b <= i -> cBuffer_peek b i = (CBUFFER_FAIL, b, None).
Proof.
  intros Hi. unfold cBuffer_peek.
  destruct (Z.geb_spec i (cBuffer_get_usedSpace b)); [reflexivity | lia].
Qed.

Lemma peek_success b i :
  wf b -> 0 <= i < cBuffer_get_usedSpace b ->
  cBuffer_peek b i =
  (CBUFFER_SUCCESS, b,
   Some (data b !!! Z.to_nat ((front b + i + 1) mod C_BUFFER_SIZE))).
Proof.
  intros H Hi. pose proof (usedSpace_range b H) as Hu.
  destruct H as (_ & Hf & Hr). unfold cBuffer_peek.
  destruct (Z.geb_spec i (cBuffer_get_usedSpace b)); [lia|].
  replace (u32 (u32 (front b + i) + 1)) with (front b + i + 1) by idx_lia.
  reflexivity.
Qed.

Lemma contents_lookup b k :
  Z.of_nat k < cBuffer_get_usedSpace b -> contents b !! k = Some (slot b k).
Proof.
  intros Hk. unfold contents. rewrite list_lookup_fmap.
  rewrite (lookup_seq_lt 0 _ k) by lia. reflexivity.
Qed.

(** ** Reachable states *)

Lemma add_string_loop_wf stringData count : forall i b,
  wf b -> wf (add_string_loop stringData i count b).
Proof.
  induction count as [|k IH]; intros i b H; [exact H|].
  simpl. apply IH, add_char_wf, H.
Qed.

Lemma add_string_wf b stringData : wf b -> wf (cBuffer_add_string b stringData).2.
Proof.
  intros H. unfold cBuffer_add_string.
  destruct (_ <? _); simpl; [exact H|].
  apply add_char_wf, add_string_loop_wf, H.
Qed.

Lemma read_string_loop_wf count : forall i b dest b' dest',
  wf b -> read_string_loop i count b dest = Some (b', dest') -> wf b'.
Proof.
  induction count as [|k IH]; intros i b dest b' dest' H E.
  - simpl in E. by simplify_eq.
  - simpl in E. pose proof (read_char_wf b H) as H1.
    destruct (cBuffer_read_char b) as [[st b1] c]. simpl in H1.
    destruct (match c with Some c0 => store dest i c0 | None => Some dest end)
      as [d1|]; simpl in E; [|discriminate].
    eapply IH; eassumption.
Qed.

Lemma read_string_wf b n dest st b' dest' :
  wf b -> cBuffer_read_string b n dest = Some (st, b', dest') -> wf b'.
Proof.
  intros H E. unfold cBuffer_read_string in E.
  destruct (_ <? _); [by simplify_eq|].
  destruct (read_string_loop 0 (Z.to_nat n) b dest) as [[b1 d1]|] eqn:El;
    simpl in E; [|discriminate].
  destruct (store d1 (Z.to_nat n) x00); simpl in E; [|discriminate].
  simplify_eq. eapply read_string_loop_wf; eassumption.
Qed.

Lemma peek_frame b i : (cBuffer_peek b i).1.2 = b.
Proof. unfold cBuffer_peek. destruct (_ >=? _); reflexivity. Qed.

Lemma reachable_wf b : reachable b -> wf b.
Proof.
  induction 1 as [b0 Hl | b _ IH | b d _ IH | b _ IH | b s _ IH
                 | b n dest st b' dest' _ IH _ E | b i _ IH _].
  - apply Init_wf, Hl.
  - apply Init_wf, IH.
  - apply add_char_wf, IH.
  - apply read_char_wf, IH.
  - apply add_string_wf, IH.
  - eapply read_string_wf; eassumption.
  - rewrite peek_frame. exact IH.
Qed.

(** ** The operations on concrete states *)

Example wrapped_contents : contents wrapped = ["a"; "b"; "c"; "d"]%byte.
Proof. reflexivity. Qed.

Example wrapped_spaces :
  cBuffer_get_usedSpace wrapped = 4 /\ cBuffer_get_availableSpace wrapped = 45.
Proof. split; reflexivity. Qed.

Example wrapped_read :
  cBuffer_read_char wrapped =
    (CBUFFER_SUCCESS,
     {| data := data wrapped; front := 48; rear := 1 |},
     Some "a"%byte).
Proof. reflexivity. Qed.

Example wrapped_read_past_end :
  (read_chars wrapped 5).1 =
    [(CBUFFER_SUCCESS, Some "a"%byte); (CBUFFER_SUCCESS, Some "b"%byte);
     (CBUFFER_SUCCESS, Some "c"%byte); (CBUFFER_SUCCESS, Some "d"%byte);
     (CBUFFER_EMPTY, None)].
Proof. reflexivity. Qed.

Example nearly_full_pushes :
  (add_chars nearly_full abcd).1 =
    [CBUFFER_SUCCESS; CBUFFER_SUCCESS; CBUFFER_SUCCESS; CBUFFER_FULL;
     CBUFFER_FULL].
Proof. reflexivity. Qed.

Example strlen_hello : strlen hello = 5%nat.
Proof. reflexivity. Qed.

Example read_string_no_room :
  cBuffer_read_string wrapped 2 ["p"; "q"]%byte = None.
Proof. reflexivity. Qed.

(** * The claims *)

Ltac by_compute :=
  vm_compute; repeat split; (reflexivity || discriminate).

Ltac wf_concrete := unfold wf; by_compute.

(** C1. Conservation of space accounting: in every state reachable from
    [cBuffer_Init] by the public operations, both indices lie in
    [[0, C_BUFFER_SIZE)] and
    [cBuffer_get_usedSpace + cBuffer_get_availableSpace = C_BUFFER_SIZE - 1],
    which is 49 for the capacity of 50. *)
Theorem space_conservation b :
  reachable b ->
  (0 <= front b < C_BUFFER_SIZE /\ 0 <= rear b < C_BUFFER_SIZE) /\
  cBuffer_get_usedSpace b + cBuffer_get_availableSpace b = C_BUFFER_SIZE - 1 /\
  C_BUFFER_SIZE - 1 = 49.
Proof.
  intros Hb. apply reachable_wf in Hb.
  split; [apply Hb|]. split; [apply used_plus_available, Hb | reflexivity].
Qed.

Lemma space_conservation_witness :
  let b := (cBuffer_add_string (cBuffer_Init uninitialised) hello).2 in
  (0 <= front b < C_BUFFER_SIZE /\ 0 <= rear b < C_BUFFER_SIZE) /\
  cBuffer_get_usedSpace b + cBuffer_get_availableSpace b = C_BUFFER_SIZE - 1 /\
  C_BUFFER_SIZE - 1 = 49.
Proof.
  apply (space_conservation (cBuffer_add_string (cBuffer_Init uninitialised) hello).2).
  apply reach_add_string, reach_Init. reflexivity.
Defined.

(** C2. FIFO order: for [n <= C_BUFFER_SIZE - 1] bytes [b1 .. bn] pushed by
    [cBuffer_add_char] into a freshly initialised buffer, every push returns
    [CBUFFER_SUCCESS], and [n] calls of [cBuffer_read_char] then return
    [CBUFFER_SUCCESS] and store [b1 .. bn] in that order. *)
Theorem fifo_order b0 bs :
  length (data b0) = Z.to_nat C_BUFFER_SIZE ->
  Z.of_nat (length bs) <= C_BUFFER_SIZE - 1 ->
  (add_chars (cBuffer_Init b0) bs).1 = replicate (length bs) CBUFFER_SUCCESS /\
  (read_chars (add_chars (cBuffer_Init b0) bs).2 (length bs)).1 =
    (fun c => (CBUFFER_SUCCESS, Some c)) <$> bs.
Proof.
  intros Hl Hn. pose proof (Init_wf b0 Hl) as H0.
  destruct (add_chars_success bs (cBuffer_Init b0) H0) as (Hs & Hc & _ & Hu).
  { rewrite Init_used. lia. }
  split; [exact Hs|].
  destruct (read_chars_success (length bs) (add_chars (cBuffer_Init b0) bs).2)
    as (Hr & _).
  - apply add_chars_wf, H0.
  - rewrite Hu, Init_used. lia.
  - rewrite Hr, Hc, Init_contents. simpl. by rewrite firstn_all.
Qed.

Lemma fifo_order_witness :
  (add_chars (cBuffer_Init uninitialised) ["x"; "y"; "z"]%byte).1 =
    replicate 3 CBUFFER_SUCCESS /\
  (read_chars (add_chars (cBuffer_Init uninitialised) ["x"; "y"; "z"]%byte).2 3).1 =
    [(CBUFFER_SUCCESS, Some "x"%byte); (CBUFFER_SUCCESS, Some "y"%byte);
     (CBUFFER_SUCCESS, Some "z"%byte)].
Proof.
  apply (fifo_order uninitialised ["x"; "y"; "z"]%byte);
    [reflexivity | unfold C_BUFFER_SIZE; simpl; lia].
Defined.

(** C3. Capacity bound: right after [cBuffer_Init], whatever the bytes,
    the first [C_BUFFER_SIZE - 1 = 49] consecutive calls of
    [cBuffer_add_char] return [CBUFFER_SUCCESS] and the 50th returns
    [CBUFFER_FULL]. *)
Theorem capacity_bound b0 bs :
  length (data b0) = Z.to_nat C_BUFFER_SIZE ->
  length bs = 50%nat ->
  (add_chars (cBuffer_Init b0) bs).1 =
    replicate 49 CBUFFER_SUCCESS ++ [CBUFFER_FULL].
Proof.
  intros Hl Hn. pose proof (Init_wf b0 Hl) as H0.
  rewrite <- (take_drop 49 bs), add_chars_app. simpl fst.
  assert (Ht : length (take 49 bs) = 49%nat) by (rewrite length_take; lia).
  destruct (add_chars_success (take 49 bs) (cBuffer_Init b0) H0)
    as (Hs & _ & _ & Hu).
  { rewrite Init_used, Ht. norm_consts. lia. }
  rewrite Hs, Ht. f_equal.
  destruct (drop 49 bs) as [|d [|? ?]] eqn:Ed;
    apply (f_equal length) in Ed; rewrite length_drop, Hn in Ed;
    simpl in Ed; try lia.
  rewrite add_chars_cons. simpl.
  rewrite add_char_full; [reflexivity | apply add_chars_wf, H0 |].
  rewrite Hu, Init_used, Ht. reflexivity.
Qed.

Lemma capacity_bound_witness :
  (add_chars (cBuffer_Init uninitialised) (replicate 50 "q"%byte)).1 =
    replicate 49 CBUFFER_SUCCESS ++ [CBUFFER_FULL].
Proof.
  apply (capacity_bound uninitialised (replicate 50 "q"%byte)); reflexivity.
Defined.

(** [str_length + 1] is a 32-bit sum: at [strlen = 2^32 - 1] it wraps to 0,
    no available space is below it, and the function goes on to push. *)
Lemma add_string_length_wraps b stringData :
  Z.of_nat (strlen stringData) = 2 ^ 32 - 1 ->
  (cBuffer_add_string b stringData).1 = CBUFFER_SUCCESS.
Proof.
  intros E. unfold cBuffer_add_string. rewrite E.
  replace (u32 (u32 (2 ^ 32 - 1) + 1)) with 0 by reflexivity.
  destruct (Z.ltb_spec (cBuffer_get_availableSpace b) 0) as [Hlt|_];
    [|reflexivity].
  exfalso. unfold cBuffer_get_availableSpace in Hlt.
  destruct (_ >? _); revert Hlt; idx_lia.
Qed.

Lemma strlen_long_string : Z.of_nat (strlen long_string) = 2 ^ 32 - 1.
Proof.
  unfold long_string. rewrite strlen_terminated.
  - rewrite length_replicate. apply Z2Nat.id. lia.
  - apply Forall_replicate. discriminate.
Qed.

(** X16. String-push atomicity within the 32-bit range: for every buffer
    state and every string [s] of [n = strlen s] bytes (the bytes of
    [stringData] before its first zero) with [n + 1 < 2^32],
    [cBuffer_add_string] returns [CBUFFER_OVERFLOW] and leaves [front],
    [rear] and [data] as they were if [cBuffer_get_availableSpace < n + 1];
    otherwise it returns [CBUFFER_SUCCESS] after [n + 1] successful pushes:
    the bytes of [s] in order, then a zero byte. *)
Theorem add_string_atomic b stringData :
  wf b ->
  is_u32 (Z.of_nat (strlen stringData) + 1) ->
  (cBuffer_get_availableSpace b < Z.of_nat (strlen stringData) + 1 ->
   cBuffer_add_string b stringData = (CBUFFER_OVERFLOW, b)) /\
  (Z.of_nat (strlen stringData) + 1 <= cBuffer_get_availableSpace b ->
   let s := take (strlen stringData) stringData in
   cBuffer_add_string b stringData =
     (CBUFFER_SUCCESS, (add_chars b (s ++ [x00])).2) /\
   (add_chars b (s ++ [x00])).1 =
     replicate (S (strlen stringData)) CBUFFER_SUCCESS /\
   contents (cBuffer_add_string b stringData).2 = contents b ++ s ++ [x00] /\
   front (cBuffer_add_string b stringData).2 = front b).
Proof.
  intros H Hn. split; intros Hav.
  - by apply add_string_overflow.
  - intros s. rewrite (add_string_fits b stringData H Hav). fold s. simpl snd.
    assert (Hs : length (s ++ [x00]) = S (strlen stringData)).
    { unfold s. rewrite length_app, length_take. simpl.
      pose proof (strlen_le stringData). lia. }
    destruct (add_chars_success (s ++ [x00]) b H) as (Hst & Hc & Hf & _).
    { rewrite Hs. rewrite (availableSpace_wf b H) in Hav. lia. }
    rewrite Hs in Hst. repeat split; assumption.
Qed.

Lemma add_string_atomic_witness :
  cBuffer_add_string nearly_full abcd = (CBUFFER_OVERFLOW, nearly_full) /\
  contents (cBuffer_add_string wrapped abcd).2 =
    contents wrapped ++ ["a"; "b"; "c"; "d"]%byte ++ [x00].
Proof.
  split.
  - apply (add_string_atomic nearly_full abcd);
      [wf_concrete | by_compute | by_compute].
  - apply (add_string_atomic wrapped abcd);
      [wf_concrete | by_compute | by_compute].
Defined.

(** C5, as the specification states it, fails: after
    [cBuffer_add_string "hello"] on a freshly initialised buffer and
    [cBuffer_read_string] with [str_length = 5], the buffer is not empty. *)
Lemma hello_round_trip_not_empty :
  let pushed_hello := cBuffer_add_string (cBuffer_Init uninitialised) hello in
  ~ (pushed_hello.1 = CBUFFER_SUCCESS /\
     exists b2,
       cBuffer_read_string pushed_hello.2 5 (replicate 6 xff) =
         Some (CBUFFER_SUCCESS, b2, hello) /\
       cBuffer_get_usedSpace b2 = 0).
Proof.
  intros pushed_hello (_ & b2 & E & Hu).
  vm_compute in E. injection E as <-. vm_compute in Hu. discriminate.
Qed.

(** C5 (amended). String round-trip: on a freshly initialised capacity-50
    buffer, [cBuffer_add_string "hello"] followed by [cBuffer_read_string]
    with [str_length = 5] into a 6-byte destination both return
    [CBUFFER_SUCCESS], and the destination then holds ['h','e','l','l','o',0];
    the buffer is left with one byte, the terminator that
    [cBuffer_add_string] pushed ([cBuffer_get_usedSpace = 1]). *)
Theorem hello_round_trip b0 dest :
  length (data b0) = Z.to_nat C_BUFFER_SIZE ->
  length dest = 6%nat ->
  exists b1 b2,
    cBuffer_add_string (cBuffer_Init b0) hello = (CBUFFER_SUCCESS, b1) /\
    cBuffer_read_string b1 5 dest = Some (CBUFFER_SUCCESS, b2, hello) /\
    cBuffer_get_usedSpace b2 = 1 /\
    contents b2 = [x00].
Proof.
  intros Hl Hd. rewrite (Init_data b0 Hl).
  do 7 (destruct dest as [|? dest]; try discriminate Hd).
  eexists _, _. split; [reflexivity|]. split; [reflexivity|].
  split; reflexivity.
Qed.

Lemma hello_round_trip_witness :
  exists b1 b2,
    cBuffer_add_string (cBuffer_Init uninitialised) hello = (CBUFFER_SUCCESS, b1) /\
    cBuffer_read_string b1 5 (replicate 6 xff) = Some (CBUFFER_SUCCESS, b2, hello) /\
    cBuffer_get_usedSpace b2 = 1 /\
    contents b2 = [x00].
Proof.
  apply (hello_round_trip uninitialised (replicate 6 xff)); reflexivity.
Defined.

(** C6. Peek correctness: for every buffer state and every index [i],
    [cBuffer_peek] returns [CBUFFER_FAIL] exactly when
    [i >= cBuffer_get_usedSpace]; otherwise it returns [CBUFFER_SUCCESS] and
    stores [data[(front + i + 1) mod C_BUFFER_SIZE]], the [i]-th oldest
    unread byte; it leaves [front], [rear] and [data] as they were; and a
    successful peek at index 0 stores the byte that the next
    [cBuffer_read_char] returns. *)
Theorem peek_correct b i :
  wf b -> is_u32 i ->
  ((cBuffer_peek b i).1.1 = CBUFFER_FAIL <-> cBuffer_get_usedSpace b <= i) /\
  (i < cBuffer_get_usedSpace b ->
   cBuffer_peek b i =
     (CBUFFER_SUCCESS, b,
      Some (data b !!! Z.to_nat ((front b + i + 1) mod C_BUFFER_SIZE))) /\
   (cBuffer_peek b i).2 = contents b !! Z.to_nat i) /\
  (cBuffer_peek b i).1.2 = b /\
  ((cBuffer_peek b 0).1.1 = CBUFFER_SUCCESS ->
   (cBuffer_read_char b).1.1 = CBUFFER_SUCCESS /\
   (cBuffer_read_char b).2 = (cBuffer_peek b 0).2).
Proof.
  intros H Hi.
  assert (Hok : i < cBuffer_get_usedSpace b ->
    cBuffer_peek b i =
      (CBUFFER_SUCCESS, b,
       Some (data b !!! Z.to_nat ((front b + i + 1) mod C_BUFFER_SIZE)))).
  { intros Hlt. apply peek_success; [exact H | unfold is_u32 in Hi; lia]. }
  split; [|split; [|split]].
  - split.
    + intros E. destruct (Z.lt_ge_cases i (cBuffer_get_usedSpace b)) as [Hlt|Hge];
        [|exact Hge].
      rewrite (Hok Hlt) in E. discriminate.
    + intros Hge. by rewrite peek_fail.
  - intros Hlt. split; [exact (Hok Hlt)|].
    rewrite (Hok Hlt), contents_lookup by (unfold is_u32 in Hi; lia).
    simpl. unfold slot. rewrite Z2Nat.id by (unfold is_u32 in Hi; lia).
    replace (front b + 1 + i) with (front b + i + 1) by lia. reflexivity.
  - apply peek_frame.
  - intros E.
    destruct (Z.lt_ge_cases 0 (cBuffer_get_usedSpace b)) as [Hlt|Hge].
    + rewrite (read_char_success b H Hlt), (peek_success b 0 H) by lia.
      simpl. split; [reflexivity|]. unfold slot.
      replace (front b + 1 + Z.of_nat 0) with (front b + 0 + 1) by lia.
      reflexivity.
    + rewrite peek_fail in E by exact Hge. discriminate.
Qed.

Lemma peek_correct_witness :
  cBuffer_peek wrapped 2 = (CBUFFER_SUCCESS, wrapped, Some "c"%byte) /\
  (cBuffer_peek wrapped 4).1.1 = CBUFFER_FAIL /\
  (cBuffer_read_char wrapped).2 = (cBuffer_peek wrapped 0).2.
Proof.
  assert (Hw : wf wrapped) by wf_concrete.
  split; [|split].
  - apply (peek_correct wrapped 2 Hw); by_compute.
  - apply (peek_correct wrapped 4 Hw); by_compute.
  - apply (peek_correct wrapped 0 Hw); by_compute.
Defined.

(** C7. String-read underflow atomicity: for every buffer state and every
    requested length [n], if [cBuffer_get_usedSpace < n] then
    [cBuffer_read_string] returns [CBUFFER_FAIL] with the buffer and the
    destination as they were; otherwise (the destination having room for
    [n + 1] bytes) it pops exactly [n] bytes by [n] successful calls of
    [cBuffer_read_char] into [DestinationBuffer[0..n)], writes a zero at
    [DestinationBuffer[n]] and returns [CBUFFER_SUCCESS]. *)
Theorem read_string_atomic b n dest :
  wf b -> is_u32 n ->
  (cBuffer_get_usedSpace b < n ->
   cBuffer_read_string b n dest = Some (CBUFFER_FAIL, b, dest)) /\
  (n <= cBuffer_get_usedSpace b -> (Z.to_nat n < length dest)%nat ->
   let pops := read_chars b (Z.to_nat n) in
   let bytes := take (Z.to_nat n) (contents b) in
   length bytes = Z.to_nat n /\
   pops.1 = (fun c => (CBUFFER_SUCCESS, Some c)) <$> bytes /\
   cBuffer_read_string b n dest =
     Some (CBUFFER_SUCCESS, pops.2,
           bytes ++ x00 :: drop (S (Z.to_nat n)) dest) /\
   contents pops.2 = drop (Z.to_nat n) (contents b) /\
   cBuffer_get_usedSpace pops.2 = cBuffer_get_usedSpace b - n).
Proof.
  intros H Hn. unfold is_u32 in Hn. split.
  - apply read_string_underflow.
  - intros Hle Hlen pops bytes.
    destruct (read_chars_success (Z.to_nat n) b H) as (Hs & Hc & _ & _ & Hu);
      [lia|].
    split; [unfold bytes; rewrite length_take, contents_length; lia|].
    split; [exact Hs|].
    split; [apply read_string_enough; (assumption || lia)|].
    split; [exact Hc|]. unfold pops. rewrite Hu. lia.
Qed.

Lemma read_string_atomic_witness :
  cBuffer_read_string wrapped 5 (replicate 8 xff) =
    Some (CBUFFER_FAIL, wrapped, replicate 8 xff) /\
  cBuffer_read_string wrapped 3 (replicate 8 xff) =
    Some (CBUFFER_SUCCESS, (read_chars wrapped 3).2,
          ["a"; "b"; "c"; x00; xff; xff; xff; xff]%byte).
Proof.
  assert (Hw : wf wrapped) by wf_concrete.
  split.
  - apply (read_string_atomic wrapped 5 (replicate 8 xff) Hw); by_compute.
  - apply (read_string_atomic wrapped 3 (replicate 8 xff) Hw);
      [by_compute | by_compute | simpl; lia].
Defined.

(** C8. Unreachable status value: none of [cBuffer_add_char],
    [cBuffer_read_char], [cBuffer_add_string], [cBuffer_read_string] and
    [cBuffer_peek] returns [CBUFFER_INVALID_STRING], whatever the buffer
    state and the arguments. *)
Theorem never_invalid_string b d stringData n dest i :
  (cBuffer_add_char b d).1 <> CBUFFER_INVALID_STRING /\
  (cBuffer_read_char b).1.1 <> CBUFFER_INVALID_STRING /\
  (cBuffer_add_string b stringData).1 <> CBUFFER_INVALID_STRING /\
  (fun r => r.1.1) <$> cBuffer_read_string b n dest
    <> Some CBUFFER_INVALID_STRING /\
  (cBuffer_peek b i).1.1 <> CBUFFER_INVALID_STRING.
Proof.
  repeat split.
  - unfold cBuffer_add_char. destruct (negb _); discriminate.
  - unfold cBuffer_read_char. destruct (negb _); discriminate.
  - unfold cBuffer_add_string. destruct (_ <? _); discriminate.
  - unfold cBuffer_read_string. destruct (_ <? _); [discriminate|].
    destruct (read_string_loop _ _ _ _) as [[b1 d1]|]; [|discriminate].
    simpl. destruct (store _ _ _); discriminate.
  - unfold cBuffer_peek. destruct (_ >=? _); discriminate.
Qed.

(** C9. Zero-length string read: for every buffer state, the empty buffer
    included, [cBuffer_read_string] with [str_length = 0] (into a
    destination of at least one byte) returns [CBUFFER_SUCCESS], writes only
    a zero at [DestinationBuffer[0]] and leaves [front], [rear] and [data]
    as they were. *)
Theorem read_string_zero b dest :
  (0 < length dest)%nat ->
  cBuffer_read_string b 0 dest =
    Some (CBUFFER_SUCCESS, b, <[0%nat := x00]> dest).
Proof.
  intros Hd. unfold cBuffer_read_string.
  destruct (Z.ltb_spec (cBuffer_get_usedSpace b) 0) as [Hlt|_].
  - exfalso. unfold cBuffer_get_usedSpace in Hlt.
    destruct (_ >=? _); revert Hlt; idx_lia.
  - simpl. by rewrite store_in_bounds.
Qed.

Lemma read_string_zero_witness :
  cBuffer_read_string (cBuffer_Init uninitialised) 0 ["p"; "q"]%byte =
    Some (CBUFFER_SUCCESS, cBuffer_Init uninitialised, [x00; "q"]%byte).
Proof.
  apply (read_string_zero (cBuffer_Init uninitialised) ["p"; "q"]%byte).
  simpl. lia.
Defined.

(** C10. Single-byte write frame: for every buffer state,
    [cBuffer_add_char] returns [CBUFFER_SUCCESS] or [CBUFFER_FULL]; when it
    succeeds it sets [rear] to [(old rear + 1) mod C_BUFFER_SIZE] and the
    one cell of [data] at that index to the byte, [front] and every other
    cell being as they were; when it returns [CBUFFER_FULL] the whole state
    is as it was. *)
Theorem add_char_frame b d :
  wf b ->
  ((cBuffer_add_char b d).1 = CBUFFER_SUCCESS \/
   (cBuffer_add_char b d).1 = CBUFFER_FULL) /\
  ((cBuffer_add_char b d).1 = CBUFFER_SUCCESS ->
   let b' := (cBuffer_add_char b d).2 in
   rear b' = (rear b + 1) mod C_BUFFER_SIZE /\
   front b' = front b /\
   length (data b') = length (data b) /\
   data b' !! Z.to_nat (rear b') = Some d /\
   forall j, j <> Z.to_nat (rear b') -> data b' !! j = data b !! j) /\
  ((cBuffer_add_char b d).1 = CBUFFER_FULL -> (cBuffer_add_char b d).2 = b).
Proof.
  intros H. pose proof (usedSpace_range b H) as Hu.
  destruct (decide (cBuffer_get_usedSpace b = C_BUFFER_SIZE - 1)) as [E|E].
  - rewrite (add_char_full b d H E). simpl.
    split; [by right|]. split; [discriminate | reflexivity].
  - rewrite (add_char_success b d H) by lia. simpl.
    split; [by left|]. split; [intros _ | discriminate].
    destruct H as (Hl & Hf & Hr).
    split; [reflexivity|]. split; [reflexivity|].
    split; [apply length_insert|].
    split.
    + apply list_lookup_insert_eq. rewrite Hl. idx_lia.
    + intros j Hj. by apply list_lookup_insert_ne.
Qed.

Lemma add_char_frame_witness :
  (cBuffer_add_char wrapped "e"%byte).2 =
    {| data := <[2%nat := "e"%byte]> (data wrapped); front := 47; rear := 2 |} /\
  (cBuffer_add_char (add_chars (cBuffer_Init uninitialised)
                       (replicate 49 "q"%byte)).2 "e"%byte).2 =
    (add_chars (cBuffer_Init uninitialised) (replicate 49 "q"%byte)).2.
Proof.
  split; [reflexivity|].
  apply (add_char_frame
           (add_chars (cBuffer_Init uninitialised) (replicate 49 "q"%byte)).2
           "e"%byte); [wf_concrete | by_compute].
Defined.

(** * Further properties of the operations *)

(** ** The buffer as a bounded queue *)

Lemma contents_nil b : contents b = [] <-> Z.to_nat (cBuffer_get_usedSpace b) = 0%nat.
Proof.
  rewrite <- contents_length. split.
  - intros ->. reflexivity.
  - apply nil_length_inv.
Qed.

(** X1. [cBuffer_add_char] is the push of a queue bounded by
    [C_BUFFER_SIZE - 1]: in every buffer state, when fewer than 49 bytes are
    stored it returns [CBUFFER_SUCCESS] and the byte becomes the youngest of
    the unread bytes; when 49 are stored it returns [CBUFFER_FULL] and the
    state is as it was; more than 49 are never stored. *)
Theorem add_char_queue b d :
  wf b ->
  (Z.of_nat (length (contents b)) < C_BUFFER_SIZE - 1 ->
   (cBuffer_add_char b d).1 = CBUFFER_SUCCESS /\
   contents (cBuffer_add_char b d).2 = contents b ++ [d]) /\
  (Z.of_nat (length (contents b)) = C_BUFFER_SIZE - 1 ->
   cBuffer_add_char b d = (CBUFFER_FULL, b)) /\
  Z.of_nat (length (contents b)) <= C_BUFFER_SIZE - 1.
Proof.
  intros H. pose proof (usedSpace_range b H) as Hu.
  rewrite contents_length, Z2Nat.id by lia.
  split; [|split; [|lia]].
  - intros Hlt. rewrite (add_char_success b d H Hlt). simpl.
    split; [reflexivity | by apply pushed_contents].
  - apply add_char_full, H.
Qed.

Lemma add_char_queue_witness :
  contents (cBuffer_add_char wrapped "e"%byte).2 = ["a"; "b"; "c"; "d"; "e"]%byte.
Proof.
  apply (add_char_queue wrapped "e"%byte); [wf_concrete | by_compute].
Defined.

(** X2. [cBuffer_read_char] is the pop of that queue: in every buffer
    state, with no unread byte it returns [CBUFFER_EMPTY], stores nothing
    and leaves the state as it was; otherwise it returns [CBUFFER_SUCCESS],
    stores the oldest unread byte and removes it from the unread bytes,
    changing neither [rear] nor any cell of [data]. *)
Theorem read_char_queue b :
  wf b ->
  match contents b with
  | [] => cBuffer_read_char b = (CBUFFER_EMPTY, b, None)
  | c :: rest =>
      (cBuffer_read_char b).1.1 = CBUFFER_SUCCESS /\
      (cBuffer_read_char b).2 = Some c /\
      contents (cBuffer_read_char b).1.2 = rest /\
      data (cBuffer_read_char b).1.2 = data b /\
      rear (cBuffer_read_char b).1.2 = rear b /\
      front (cBuffer_read_char b).1.2 = (front b + 1) mod C_BUFFER_SIZE
  end.
Proof.
  intros H. pose proof (usedSpace_range b H) as Hu.
  destruct (decide (cBuffer_get_usedSpace b = 0)) as [E|E].
  - replace (contents b) with (@nil byte)
      by (symmetry; apply contents_nil; lia).
    by apply read_char_empty.
  - rewrite (popped_contents b H) by lia.
    rewrite (read_char_success b H) by lia. simpl. repeat split.
Qed.

Lemma read_char_queue_witness :
  (cBuffer_read_char wrapped).2 = Some "a"%byte /\
  contents (cBuffer_read_char wrapped).1.2 = ["b"; "c"; "d"]%byte.
Proof.
  pose proof (read_char_queue wrapped) as Hq.
  change (contents wrapped) with ["a"; "b"; "c"; "d"]%byte in Hq.
  destruct Hq as (_ & Hc & Hrest & _); [wf_concrete|].
  split; assumption.
Defined.

(** X3. The statuses agree with the space queries: in every buffer state,
    [cBuffer_add_char] returns [CBUFFER_FULL] exactly when
    [cBuffer_get_availableSpace] is 0, and [cBuffer_read_char] returns
    [CBUFFER_EMPTY] exactly when [cBuffer_get_usedSpace] is 0. *)
Theorem full_empty_status b d :
  wf b ->
  ((cBuffer_add_char b d).1 = CBUFFER_FULL <->
   cBuffer_get_availableSpace b = 0) /\
  ((cBuffer_read_char b).1.1 = CBUFFER_EMPTY <->
   cBuffer_get_usedSpace b = 0).
Proof.
  intros H. pose proof (usedSpace_range b H) as Hu.
  rewrite (availableSpace_wf b H). split; split.
  - intros E. destruct (decide (cBuffer_get_usedSpace b = C_BUFFER_SIZE - 1));
      [lia|].
    rewrite (add_char_success b d H) in E by lia. discriminate.
  - intros E. rewrite (add_char_full b d H) by lia. reflexivity.
  - intros E. destruct (decide (cBuffer_get_usedSpace b = 0)) as [|N];
      [assumption|].
    rewrite (read_char_success b H) in E by lia. discriminate.
  - intros E. by rewrite (read_char_empty b H E).
Qed.

Lemma full_empty_status_witness :
  (cBuffer_add_char wrapped "e"%byte).1 = CBUFFER_FULL <->
  cBuffer_get_availableSpace wrapped = 0.
Proof.
  apply (full_empty_status wrapped "e"%byte). wf_concrete.
Defined.

(** X4. The space queries follow the operations: in every buffer state, a
    successful [cBuffer_add_char] raises [cBuffer_get_usedSpace] by one and
    lowers [cBuffer_get_availableSpace] by one, and a successful
    [cBuffer_read_char] does the opposite. *)
Theorem space_steps b d :
  wf b ->
  ((cBuffer_add_char b d).1 = CBUFFER_SUCCESS ->
   cBuffer_get_usedSpace (cBuffer_add_char b d).2 = cBuffer_get_usedSpace b + 1 /\
   cBuffer_get_availableSpace (cBuffer_add_char b d).2 =
     cBuffer_get_availableSpace b - 1) /\
  ((cBuffer_read_char b).1.1 = CBUFFER_SUCCESS ->
   cBuffer_get_usedSpace (cBuffer_read_char b).1.2 = cBuffer_get_usedSpace b - 1 /\
   cBuffer_get_availableSpace (cBuffer_read_char b).1.2 =
     cBuffer_get_availableSpace b + 1).
Proof.
  intros H. pose proof (usedSpace_range b H) as Hu. split; intros E.
  - destruct (decide (cBuffer_get_usedSpace b = C_BUFFER_SIZE - 1)) as [F|F].
    { rewrite (add_char_full b d H F) in E. discriminate. }
    rewrite (add_char_success b d H) by lia. simpl.
    rewrite (availableSpace_wf _ (pushed_wf b d H)), (availableSpace_wf b H).
    rewrite pushed_used by (assumption || lia). lia.
  - destruct (decide (cBuffer_get_usedSpace b = 0)) as [F|F].
    { rewrite (read_char_empty b H F) in E. discriminate. }
    rewrite (read_char_success b H) by lia. simpl.
    rewrite (availableSpace_wf _ (popped_wf b H)), (availableSpace_wf b H).
    rewrite popped_used by (assumption || lia). lia.
Qed.

Lemma space_steps_witness :
  cBuffer_get_usedSpace (cBuffer_add_char wrapped "e"%byte).2 = 5 /\
  cBuffer_get_availableSpace (cBuffer_add_char wrapped "e"%byte).2 = 44.
Proof.
  apply (space_steps wrapped "e"%byte); [wf_concrete | by_compute].
Defined.

(** ** Longer runs of pushes and pops *)

Lemma add_chars_full bs : forall b,
  wf b -> cBuffer_get_usedSpace b = C_BUFFER_SIZE - 1 ->
  add_chars b bs = (replicate (length bs) CBUFFER_FULL, b).
Proof.
  induction bs as [|d bs IH]; intros b H Hu; [reflexivity|].
  rewrite add_chars_cons, (add_char_full b d H Hu). simpl.
  rewrite (IH b H Hu). reflexivity.
Qed.

Lemma read_chars_empty n : forall b,
  wf b -> cBuffer_get_usedSpace b = 0 ->
  read_chars b n = (replicate n (CBUFFER_EMPTY, None), b).
Proof.
  induction n as [|n IH]; intros b H Hu; [reflexivity|].
  rewrite read_chars_S, (read_char_empty b H Hu). simpl.
  rewrite (IH b H Hu). reflexivity.
Qed.

Lemma read_chars_add b n m :
  read_chars b (n + m) =
  ((read_chars b n).1 ++ (read_chars (read_chars b n).2 m).1,
   (read_chars (read_chars b n).2 m).2).
Proof.
  revert b. induction n as [|n IH]; intros b.
  - simpl. destruct (read_chars b m). reflexivity.
  - change (S n + m)%nat with (S (n + m)).
    rewrite !read_chars_S, IH. reflexivity.
Qed.

(** X5. FIFO order from any state, wrapped indices included: in every
    buffer state, pushing a run of bytes that fits the available space
    succeeds at every byte, and popping everything then returns the bytes
    that were already stored followed by the bytes of the run, in order,
    and leaves the buffer empty. *)
Theorem fifo_any_state b bs :
  wf b ->
  Z.of_nat (length bs) <= cBuffer_get_availableSpace b ->
  let b1 := (add_chars b bs).2 in
  let n := length (contents b ++ bs) in
  (add_chars b bs).1 = replicate (length bs) CBUFFER_SUCCESS /\
  (read_chars b1 n).1 =
    (fun c => (CBUFFER_SUCCESS, Some c)) <$> (contents b ++ bs) /\
  cBuffer_get_usedSpace (read_chars b1 n).2 = 0.
Proof.
  intros H Hav b1 n. pose proof (usedSpace_range b H) as Hr.
  rewrite (availableSpace_wf b H) in Hav.
  destruct (add_chars_success bs b H) as (Hs & Hc & _ & Hu); [lia|].
  fold b1 in Hc, Hu. split; [exact Hs|].
  assert (Hn : Z.of_nat n = cBuffer_get_usedSpace b1).
  { unfold n. rewrite <- Hc, contents_length. rewrite Hu. lia. }
  destruct (read_chars_success n b1) as (Hp & _ & _ & _ & Hu');
    [apply add_chars_wf, H | lia |].
  split; [|lia].
  rewrite Hp, Hc. unfold n. by rewrite firstn_all.
Qed.

Lemma fifo_any_state_witness :
  (read_chars (add_chars wrapped ["e"; "f"]%byte).2 6).1 =
    (fun c => (CBUFFER_SUCCESS, Some c)) <$> ["a"; "b"; "c"; "d"; "e"; "f"]%byte.
Proof.
  apply (fifo_any_state wrapped ["e"; "f"]%byte); [wf_concrete | by_compute].
Defined.

(** X6. Pushes beyond the capacity are refused, not stored over unread
    bytes: in every buffer state and for every run of bytes,
    [cBuffer_add_char] returns [CBUFFER_SUCCESS] for as many bytes as
    [cBuffer_get_availableSpace] counts and [CBUFFER_FULL] for all the
    others; the unread bytes are then the old ones followed by the accepted
    part of the run. *)
Theorem add_chars_saturate b bs :
  wf b ->
  let k := (length bs `min` Z.to_nat (cBuffer_get_availableSpace b))%nat in
  (add_chars b bs).1 =
    replicate k CBUFFER_SUCCESS ++ replicate (length bs - k) CBUFFER_FULL /\
  contents (add_chars b bs).2 = contents b ++ take k bs.
Proof.
  intros H k. pose proof (usedSpace_range b H) as Hr.
  assert (Hav := availableSpace_wf b H).
  assert (Hk : length (take k bs) = k) by (rewrite length_take; lia).
  destruct (add_chars_success (take k bs) b H) as (Hs & Hc & _ & Hu);
    [rewrite Hk; lia|].
  rewrite <- (take_drop k bs) at 1 3. rewrite add_chars_app. simpl.
  rewrite Hs, Hk.
  destruct (decide (length bs <= k)%nat) as [Hle|Hgt].
  - rewrite drop_ge by lia. simpl. rewrite app_nil_r.
    replace (length bs - k)%nat with 0%nat by lia. simpl.
    rewrite app_nil_r. split; [reflexivity | exact Hc].
  - rewrite add_chars_full; [| apply add_chars_wf, H | rewrite Hu, Hk; lia].
    simpl. rewrite length_drop. split; [reflexivity | exact Hc].
Qed.

Lemma add_chars_saturate_witness :
  (add_chars nearly_full abcd).1 =
    replicate 3 CBUFFER_SUCCESS ++ replicate 2 CBUFFER_FULL /\
  contents (add_chars nearly_full abcd).2 =
    contents nearly_full ++ ["a"; "b"; "c"]%byte.
Proof.
  apply (add_chars_saturate nearly_full abcd). wf_concrete.
Defined.

(** X7. Pops beyond the stored bytes: in every buffer state and for every
    number [n] of calls, [cBuffer_read_char] returns the unread bytes in
    order with [CBUFFER_SUCCESS] while there are any and [CBUFFER_EMPTY],
    storing nothing, for every call after that; no cell of [data]
    changes. *)
Theorem read_chars_drain b n :
  wf b ->
  (read_chars b n).1 =
    ((fun c => (CBUFFER_SUCCESS, Some c)) <$> take n (contents b)) ++
    replicate (n - length (contents b)) (CBUFFER_EMPTY, None) /\
  contents (read_chars b n).2 = drop n (contents b) /\
  data (read_chars b n).2 = data b.
Proof.
  intros H. pose proof (usedSpace_range b H) as Hr.
  pose proof (contents_length b) as Hl.
  destruct (decide (n <= length (contents b))%nat) as [Hle|Hgt].
  - destruct (read_chars_success n b H) as (Hp & Hc & _ & Hd & _); [lia|].
    replace (n - length (contents b))%nat with 0%nat by lia.
    simpl. rewrite app_nil_r. repeat split; assumption.
  - set (u := length (contents b)) in *.
    assert (exists m, n = (u + m)%nat) as [m ->] by (exists (n - u)%nat; lia).
    rewrite read_chars_add. simpl.
    destruct (read_chars_success u b H) as (Hp & Hc & _ & Hd & Hu); [lia|].
    rewrite (read_chars_empty m (read_chars b u).2);
      [| apply read_chars_wf, H | lia]. simpl.
    rewrite Hp, Hc, Hd. rewrite !take_ge, !drop_ge by (fold u; lia).
    replace (u + m - u)%nat with m by lia. repeat split.
Qed.

Lemma read_chars_drain_witness :
  (read_chars wrapped 6).1 =
    ((fun c => (CBUFFER_SUCCESS, Some c)) <$> ["a"; "b"; "c"; "d"]%byte) ++
    replicate 2 (CBUFFER_EMPTY, None).
Proof.
  apply (read_chars_drain wrapped 6). wf_concrete.
Defined.

(** ** [cBuffer_Init] and [cBuffer_Clean] *)

(** X8. [cBuffer_Clean], like [cBuffer_Init], erases and empties: whatever
    the 50 cells and the two indices held before, afterwards every cell is
    0, both indices are 0, no space is used and 49 bytes are available,
    [cBuffer_read_char] returns [CBUFFER_EMPTY], [cBuffer_peek] returns
    [CBUFFER_FAIL] at every index, and a second [cBuffer_Init] changes
    nothing. *)
Theorem Clean_resets b :
  length (data b) = Z.to_nat C_BUFFER_SIZE ->
  let c := cBuffer_Clean b in
  c = cBuffer_Init b /\
  data c = replicate 50 x00 /\ front c = 0 /\ rear c = 0 /\
  cBuffer_get_usedSpace c = 0 /\
  cBuffer_get_availableSpace c = C_BUFFER_SIZE - 1 /\
  cBuffer_read_char c = (CBUFFER_EMPTY, c, None) /\
  (forall i, is_u32 i -> cBuffer_peek c i = (CBUFFER_FAIL, c, None)) /\
  cBuffer_Init c = c.
Proof.
  intros Hl c. unfold c, cBuffer_Clean. rewrite (Init_data b Hl).
  repeat split.
  intros i Hi. apply peek_fail. unfold is_u32 in Hi.
  change (cBuffer_get_usedSpace _) with 0. lia.
Qed.

Lemma Clean_resets_witness :
  data (cBuffer_Clean wrapped) = replicate 50 x00 /\
  cBuffer_get_usedSpace (cBuffer_Clean wrapped) = 0.
Proof.
  pose proof (Clean_resets wrapped) as Hc. simpl in Hc.
  destruct Hc as (_ & Hd & _ & _ & Hu & _); [reflexivity|].
  split; assumption.
Defined.

(** ** Strings through the buffer *)

(** X9. String round trip through an empty buffer: for every empty buffer
    state and every string [s] of [n <= C_BUFFER_SIZE - 2] bytes,
    [cBuffer_add_string] returns [CBUFFER_SUCCESS]; a following
    [cBuffer_read_string] of [n] bytes returns [CBUFFER_SUCCESS], fills the
    destination with [s] and a zero, and leaves the pushed terminator as
    the one unread byte; a [cBuffer_read_string] of [n + 1] bytes instead
    fills the destination with [s] and two zeros and leaves the buffer
    empty. The destination has room for [n + 2] bytes. *)
Theorem string_round_trip b stringData dest :
  wf b ->
  cBuffer_get_usedSpace b = 0 ->
  Z.of_nat (strlen stringData) <= C_BUFFER_SIZE - 2 ->
  (strlen stringData + 1 < length dest)%nat ->
  let n := strlen stringData in
  let s := take n stringData in
  let b1 := (cBuffer_add_string b stringData).2 in
  (cBuffer_add_string b stringData).1 = CBUFFER_SUCCESS /\
  (exists b2,
     cBuffer_read_string b1 (Z.of_nat n) dest =
       Some (CBUFFER_SUCCESS, b2, s ++ x00 :: drop (S n) dest) /\
     contents b2 = [x00]) /\
  (exists b3,
     cBuffer_read_string b1 (Z.of_nat n + 1) dest =
       Some (CBUFFER_SUCCESS, b3, s ++ x00 :: x00 :: drop (S (S n)) dest) /\
     cBuffer_get_usedSpace b3 = 0).
Proof.
  intros H Hu Hn Hd n s b1.
  assert (Hav : Z.of_nat n + 1 <= cBuffer_get_availableSpace b).
  { rewrite (availableSpace_wf b H), Hu. unfold n. lia. }
  assert (Hs : length s = n).
  { unfold s. rewrite length_take. pose proof (strlen_le stringData).
    unfold n. lia. }
  unfold b1. rewrite (add_string_fits b stringData H Hav). fold n s. simpl.
  destruct (add_chars_success (s ++ [x00]) b H) as (_ & Hc & _ & Hu1).
  { rewrite length_app, Hs. simpl. rewrite Hu. unfold n. lia. }
  pose proof (add_chars_wf b (s ++ [x00]) H) as H1.
  replace (contents b) with (@nil byte) in Hc
    by (symmetry; apply contents_nil; lia).
  simpl in Hc. rewrite length_app, Hs, Hu in Hu1. simpl in Hu1.
  set (b' := (add_chars b (s ++ [x00])).2) in *.
  split; [reflexivity|]. split.
  - eexists. split.
    + rewrite (read_string_enough b' (Z.of_nat n) dest H1) by lia.
      rewrite Nat2Z.id, Hc, take_app_length' by (symmetry; exact Hs). reflexivity.
    + destruct (read_chars_success n b' H1) as (_ & Hc2 & _); [lia|].
      rewrite Hc2, Hc, drop_app_length' by (symmetry; exact Hs). reflexivity.
  - eexists. split.
    + rewrite (read_string_enough b' (Z.of_nat n + 1) dest H1) by lia.
      replace (Z.to_nat (Z.of_nat n + 1)) with (S n) by lia.
      rewrite Hc, take_ge by (rewrite length_app, Hs; simpl; lia).
      rewrite <- app_assoc. reflexivity.
    + destruct (read_chars_success (S n) b' H1) as (_ & _ & _ & _ & Hu2);
        [lia|].
      lia.
Qed.

Lemma string_round_trip_witness :
  exists b2,
    cBuffer_read_string
      (cBuffer_add_string {| data := data wrapped; front := 47; rear := 47 |}
         abcd).2 4 (replicate 8 xff) =
      Some (CBUFFER_SUCCESS, b2,
            ["a"; "b"; "c"; "d"; x00; xff; xff; xff]%byte) /\
    contents b2 = [x00].
Proof.
  apply (string_round_trip {| data := data wrapped; front := 47; rear := 47 |}
           abcd (replicate 8 xff));
    [wf_concrete | reflexivity | by_compute | simpl; lia].
Defined.

(** ** [cBuffer_peek] against the other operations *)

Lemma peek_contents b i :
  wf b -> 0 <= i -> (cBuffer_peek b i).2 = contents b !! Z.to_nat i.
Proof.
  intros H Hi. destruct (Z.lt_ge_cases i (cBuffer_get_usedSpace b)) as [Hlt|Hge].
  - rewrite (peek_success b i H) by lia. simpl.
    rewrite contents_lookup by lia. unfold slot.
    rewrite Z2Nat.id by lia.
    replace (front b + 1 + i) with (front b + i + 1) by lia. reflexivity.
  - rewrite (peek_fail b i Hge). simpl. symmetry.
    apply lookup_ge_None. rewrite contents_length. lia.
Qed.

(** X10. [cBuffer_peek] looks ahead of [cBuffer_read_char]: in every
    buffer state and for every index [i] below [cBuffer_get_usedSpace], the
    byte stored by [cBuffer_peek] at [i] is the byte that
    [cBuffer_read_char] stores after [i] earlier calls of it, and that call
    returns [CBUFFER_SUCCESS]. *)
Theorem peek_is_later_read b i :
  wf b ->
  0 <= i < cBuffer_get_usedSpace b ->
  let b' := (read_chars b (Z.to_nat i)).2 in
  (cBuffer_read_char b').1.1 = CBUFFER_SUCCESS /\
  (cBuffer_read_char b').2 = (cBuffer_peek b i).2 /\
  is_Some (cBuffer_peek b i).2.
Proof.
  intros H Hi b'.
  destruct (read_chars_success (Z.to_nat i) b H) as (_ & Hc & _ & _ & Hu);
    [lia|].
  pose proof (read_chars_wf b (Z.to_nat i) H) as H'. fold b' in Hc, Hu, H'.
  rewrite (read_char_success b' H') by lia. simpl.
  rewrite (peek_contents b i H) by lia.
  rewrite <- (contents_lookup b' 0) by lia.
  rewrite Hc, lookup_drop, Nat.add_0_r.
  repeat split. apply lookup_lt_is_Some. rewrite contents_length. lia.
Qed.

Lemma peek_is_later_read_witness :
  (cBuffer_read_char (read_chars wrapped 2).2).2 = (cBuffer_peek wrapped 2).2.
Proof.
  apply (peek_is_later_read wrapped 2); [wf_concrete | by_compute].
Defined.

(** X11. How [cBuffer_peek] moves with the queue: in every buffer state,
    after a successful [cBuffer_add_char] every index that could be peeked
    before shows the same byte and the next index shows the new byte; after
    a successful [cBuffer_read_char] index [i] shows what index [i + 1]
    showed before. *)
Theorem peek_after_step b d i :
  wf b -> is_u32 i ->
  ((cBuffer_add_char b d).1 = CBUFFER_SUCCESS ->
   (i < cBuffer_get_usedSpace b ->
    (cBuffer_peek (cBuffer_add_char b d).2 i).2 = (cBuffer_peek b i).2) /\
   (cBuffer_peek (cBuffer_add_char b d).2 (cBuffer_get_usedSpace b)).2 = Some d) /\
  ((cBuffer_read_char b).1.1 = CBUFFER_SUCCESS ->
   (cBuffer_peek (cBuffer_read_char b).1.2 i).2 = (cBuffer_peek b (i + 1)).2).
Proof.
  intros H Hi. unfold is_u32 in Hi. pose proof (usedSpace_range b H) as Hu.
  split; intros E.
  - destruct (decide (cBuffer_get_usedSpace b = C_BUFFER_SIZE - 1)) as [F|F].
    { rewrite (add_char_full b d H F) in E. discriminate. }
    rewrite (add_char_success b d H) by lia. simpl.
    rewrite !(peek_contents (pushed b d)) by (try apply pushed_wf; (assumption || lia)).
    rewrite pushed_contents by (assumption || lia). split.
    + intros Hlt. rewrite lookup_app_l by (rewrite contents_length; lia).
      symmetry. apply peek_contents; (assumption || lia).
    + rewrite lookup_app_r by (rewrite contents_length; lia).
      rewrite contents_length, Nat.sub_diag. reflexivity.
  - destruct (decide (cBuffer_get_usedSpace b = 0)) as [F|F].
    { rewrite (read_char_empty b H F) in E. discriminate. }
    rewrite (read_char_success b H) by lia. simpl.
    rewrite (peek_contents (popped b)), (peek_contents b)
      by (try apply popped_wf; (assumption || lia)).
    rewrite (popped_contents b H) by lia.
    replace (Z.to_nat (i + 1)) with (S (Z.to_nat i)) by lia. reflexivity.
Qed.

Lemma peek_after_step_witness :
  (cBuffer_peek (cBuffer_read_char wrapped).1.2 1).2 = (cBuffer_peek wrapped 2).2.
Proof.
  apply (peek_after_step wrapped "e"%byte 1); [wf_concrete | by_compute | by_compute].
Defined.

(** ** Sizes that fit *)



(** ** The arrays and their bounds *)

Lemma read_string_loop_overrun count : forall i b dest,
  wf b ->
  Z.of_nat count <= cBuffer_get_usedSpace b ->
  (i <= length dest < i + count)%nat ->
  read_string_loop i count b dest = None.
Proof.
  induction count as [|k IH]; intros i b dest H Hk Hlen; [lia|].
  simpl read_string_loop. rewrite (read_char_success b H) by lia.
  unfold store. destruct (decide (i < length dest)%nat) as [Hi|Hi];
    [|reflexivity].
  simpl. apply IH.
  - apply popped_wf, H.
  - rewrite popped_used by (assumption || lia). lia.
  - rewrite length_insert. lia.
Qed.

(** X13. [cBuffer_read_string] does not know the size of the destination:
    in every buffer state and for every length [n], it stores outside the
    destination array (where C defines no behaviour) exactly when the
    buffer holds the [n] bytes asked for and the array has at most [n]
    cells; a caller that provides [n + 1] cells is always safe. *)
Theorem read_string_overrun b n dest :
  wf b -> is_u32 n ->
  (cBuffer_read_string b n dest = None <->
   n <= cBuffer_get_usedSpace b /\ (length dest <= Z.to_nat n)%nat).
Proof.
  intros H Hn. unfold is_u32 in Hn. split.
  - intros E.
    destruct (Z.lt_ge_cases (cBuffer_get_usedSpace b) n) as [Hlt|Hge].
    { rewrite (read_string_underflow b n dest Hlt) in E. discriminate. }
    split; [lia|].
    destruct (decide (Z.to_nat n < length dest)%nat) as [Hroom|]; [|lia].
    rewrite (read_string_enough b n dest H) in E by (assumption || lia).
    discriminate.
  - intros [Hle Hshort]. unfold cBuffer_read_string.
    destruct (Z.ltb_spec (cBuffer_get_usedSpace b) n); [lia|].
    destruct (decide (length dest < Z.to_nat n)%nat) as [Hlt|Heq].
    + rewrite read_string_loop_overrun by (assumption || lia). reflexivity.
    + rewrite read_string_loop_spec by (assumption || lia). simpl.
      unfold store. rewrite decide_False; [reflexivity|].
      rewrite length_app, length_take, length_drop, contents_length. lia.
Qed.

Lemma read_string_overrun_witness :
  cBuffer_read_string wrapped 2 ["p"; "q"]%byte = None.
Proof.
  apply (read_string_overrun wrapped 2 ["p"; "q"]%byte);
    [wf_concrete | by_compute | split; [by_compute | simpl; lia]].
Defined.

(** X14. The index into [data] is always inside the array: for a structure
    of 50 cells whose [front] and [rear] hold any values at all, a
    successful [cBuffer_add_char] leaves [rear] in [[0, C_BUFFER_SIZE)] with
    the byte in that cell and the array at its length, a successful
    [cBuffer_read_char] leaves [front] in [[0, C_BUFFER_SIZE)] and stores
    the byte of that cell, and a successful [cBuffer_peek] stores the byte
    of some cell of the array. *)
Theorem index_in_array b d i :
  length (data b) = Z.to_nat C_BUFFER_SIZE ->
  ((cBuffer_add_char b d).1 = CBUFFER_SUCCESS ->
   0 <= rear (cBuffer_add_char b d).2 < C_BUFFER_SIZE /\
   length (data (cBuffer_add_char b d).2) = Z.to_nat C_BUFFER_SIZE /\
   data (cBuffer_add_char b d).2 !! Z.to_nat (rear (cBuffer_add_char b d).2)
     = Some d) /\
  ((cBuffer_read_char b).1.1 = CBUFFER_SUCCESS ->
   0 <= front (cBuffer_read_char b).1.2 < C_BUFFER_SIZE /\
   (cBuffer_read_char b).2 =
     data b !! Z.to_nat (front (cBuffer_read_char b).1.2) /\
   is_Some (cBuffer_read_char b).2) /\
  ((cBuffer_peek b i).1.1 = CBUFFER_SUCCESS ->
   exists k, (k < 50)%nat /\ (cBuffer_peek b i).2 = data b !! k /\
             is_Some (cBuffer_peek b i).2).
Proof.
  intros Hl.
  assert (Hin : forall z, (Z.to_nat (u32 z mod C_BUFFER_SIZE) < length (data b))%nat).
  { intros z. rewrite Hl. idx_lia. }
  split; [|split].
  - unfold cBuffer_add_char. destruct (negb _); [intros _ | discriminate].
    simpl. split; [idx_lia|]. rewrite length_insert. split; [exact Hl|].
    apply list_lookup_insert_eq, Hin.
  - unfold cBuffer_read_char. destruct (negb _); [intros _ | discriminate].
    simpl. split; [idx_lia|].
    rewrite (list_lookup_lookup_total_lt _ _ (Hin (front b + 1))).
    split; [reflexivity | eexists; reflexivity].
  - unfold cBuffer_peek. destruct (_ >=? _); [discriminate | intros _].
    simpl. exists (Z.to_nat (u32 (u32 (front b + i) + 1) mod C_BUFFER_SIZE)).
    split; [norm_consts; idx_lia|].
    rewrite (list_lookup_lookup_total_lt _ _ (Hin (u32 (front b + i) + 1))).
    split; [reflexivity | eexists; reflexivity].
Qed.

Lemma index_in_array_witness :
  0 <= rear (cBuffer_add_char {| data := data wrapped; front := 7; rear := 4294967295 |}
               "e"%byte).2 < C_BUFFER_SIZE.
Proof.
  apply (index_in_array {| data := data wrapped; front := 7; rear := 4294967295 |}
           "e"%byte 0); by_compute.
Defined.

(** ** A streaming caller *)

(** X15. The buffer as a delay line, for runs of any length: in every
    buffer state that is not full, pushing and at once popping each byte of
    a run succeeds at every call; the bytes handed back are the stored
    bytes followed by the run, each as late as the number of bytes stored,
    and as many bytes stay stored as before. The indices wrap as often as
    the run is long. *)
Theorem echo_chars_delay bs : forall b,
  wf b ->
  cBuffer_get_usedSpace b < C_BUFFER_SIZE - 1 ->
  (echo_chars b bs).1 =
    (fun c => (CBUFFER_SUCCESS, CBUFFER_SUCCESS, Some c))
      <$> take (length bs) (contents b ++ bs) /\
  contents (echo_chars b bs).2 = drop (length bs) (contents b ++ bs) /\
  cBuffer_get_usedSpace (echo_chars b bs).2 = cBuffer_get_usedSpace b.
Proof.
  induction bs as [|d bs IH]; intros b H Hu.
  - simpl. rewrite app_nil_r. repeat split.
  - pose proof (usedSpace_range b H) as Hr.
    pose proof (pushed_wf b d H) as H1.
    pose proof (pushed_used b d H Hu) as Hu1.
    pose proof (pushed_contents b d H Hu) as Hc1.
    pose proof (popped_wf _ H1) as H2.
    assert (Hu2 := popped_used _ H1). rewrite Hu1 in Hu2.
    assert (Hc2 := popped_contents _ H1). rewrite Hu1, Hc1 in Hc2.
    specialize (Hu2 ltac:(lia)). specialize (Hc2 ltac:(lia)).
    simpl echo_chars. rewrite (add_char_success b d H Hu).
    rewrite (read_char_success _ H1) by lia.
    destruct (IH (popped (pushed b d)) H2) as (Ho & Hc & Hus); [lia|].
    destruct (echo_chars (popped (pushed b d)) bs) as [rs b3]. simpl in *.
    rewrite Ho, Hc, Hus.
    replace (contents b ++ d :: bs) with ((contents b ++ [d]) ++ bs)
      by (rewrite <- app_assoc; reflexivity).
    rewrite Hc2. simpl. repeat split. lia.
Qed.

Lemma echo_chars_delay_witness :
  (echo_chars wrapped (replicate 120 "x"%byte)).1 =
    (fun c => (CBUFFER_SUCCESS, CBUFFER_SUCCESS, Some c))
      <$> (["a"; "b"; "c"; "d"]%byte ++ replicate 116 "x"%byte).
Proof.
  apply (echo_chars_delay (replicate 120 "x"%byte) wrapped);
    [wf_concrete | by_compute].
Defined.

(** ** A string longer than a [uint32_t] counts *)

Lemma add_chars_overfull b bs :
  wf b ->
  (Z.to_nat (cBuffer_get_availableSpace b) <= length bs)%nat ->
  (add_chars b bs).2 =
    (add_chars b (take (Z.to_nat (cBuffer_get_availableSpace b)) bs)).2 /\
  cBuffer_get_usedSpace (add_chars b bs).2 = C_BUFFER_SIZE - 1.
Proof.
  intros H Hlen. pose proof (usedSpace_range b H) as Hr.
  assert (Hav := availableSpace_wf b H).
  set (k := Z.to_nat (cBuffer_get_availableSpace b)) in *.
  assert (Hk : length (take k bs) = k) by (rewrite length_take; lia).
  destruct (add_chars_success (take k bs) b H) as (_ & _ & _ & Hu);
    [rewrite Hk; lia|].
  assert (Hfull : cBuffer_get_usedSpace (add_chars b (take k bs)).2
                  = C_BUFFER_SIZE - 1) by (rewrite Hu, Hk; lia).
  rewrite <- (take_drop k bs) at 1 3. rewrite add_chars_app. cbn [fst snd].
  rewrite add_chars_full by (try apply add_chars_wf; assumption).
  cbn [fst snd]. split; [reflexivity | exact Hfull].
Qed.

(** When [str_length + 1] has wrapped to 0 the loop runs over the whole
    string: the pushes fill the available space, the rest of them and the
    push of the terminator are refused, and the function returns
    [CBUFFER_SUCCESS] all the same. *)
Lemma add_string_wrapped_length b stringData :
  wf b ->
  Z.of_nat (strlen stringData) = 2 ^ 32 - 1 ->
  cBuffer_add_string b stringData =
    (CBUFFER_SUCCESS,
     (add_chars b (take (Z.to_nat (cBuffer_get_availableSpace b)) stringData)).2).
Proof.
  intros H E. pose proof (usedSpace_range b H) as Hr.
  assert (Hav := availableSpace_wf b H).
  pose proof (strlen_le stringData) as Hle.
  unfold cBuffer_add_string.
  rewrite (u32_small (Z.of_nat (strlen stringData)))
    by (rewrite E; unfold is_u32; lia).
  rewrite Nat2Z.id. rewrite E.
  replace (u32 (2 ^ 32 - 1 + 1)) with 0 by reflexivity.
  destruct (Z.ltb_spec (cBuffer_get_availableSpace b) 0) as [Hlt|_]; [lia|].
  rewrite add_string_loop_add_chars by lia. rewrite drop_0.
  assert (Hlong : (Z.to_nat (cBuffer_get_availableSpace b)
                   <= length (take (strlen stringData) stringData))%nat).
  { rewrite length_take. norm_consts. lia. }
  destruct (add_chars_overfull b _ H Hlong) as [Hst Hfull].
  rewrite add_char_full by (try apply add_chars_wf; assumption).
  cbn [snd]. rewrite Hst, take_take.
  rewrite Nat.min_l by (norm_consts; lia). reflexivity.
Qed.

(** C4. The code at the failing input: the freshly initialised buffer has
    49 bytes available, fewer than the [2^32] that [long_string] and its
    terminator need; [cBuffer_add_string] does not return
    [CBUFFER_OVERFLOW] with the buffer as it was, but returns
    [CBUFFER_SUCCESS] with the first 49 bytes of the string stored and no
    terminator. *)
Theorem add_string_long_partial_write :
  cBuffer_get_availableSpace (cBuffer_Init uninitialised) = 49 /\
  Z.of_nat (strlen long_string) + 1 = 2 ^ 32 /\
  cBuffer_add_string (cBuffer_Init uninitialised) long_string =
    (CBUFFER_SUCCESS,
     {| data := x00 :: replicate 49 "a"%byte; front := 0; rear := 49 |}) /\
  contents (cBuffer_add_string (cBuffer_Init uninitialised) long_string).2 =
    replicate 49 "a"%byte /\
  cBuffer_add_string (cBuffer_Init uninitialised) long_string
    <> (CBUFFER_OVERFLOW, cBuffer_Init uninitialised).
Proof.
  assert (E : cBuffer_add_string (cBuffer_Init uninitialised) long_string =
    (CBUFFER_SUCCESS,
     {| data := x00 :: replicate 49 "a"%byte; front := 0; rear := 49 |})).
  { rewrite add_string_wrapped_length;
      [| apply Init_wf; reflexivity | apply strlen_long_string].
    change (Z.to_nat (cBuffer_get_availableSpace (cBuffer_Init uninitialised)))
      with 49%nat.
    unfold long_string.
    rewrite take_app_le by (rewrite length_replicate; lia).
    rewrite take_replicate, Nat.min_l by lia.
    reflexivity. }
  split; [reflexivity|]. split; [rewrite strlen_long_string; reflexivity|].
  split; [exact E|]. rewrite E. split; [reflexivity | discriminate].
Qed.
